(** * NameDigest: the fingerprint routine of name_processor.c

    A shallow embedding of [process_name] and [main] from
    src/name_processor.c, and the properties its specification states
    about them.

    Conventions of the embedding.
    - An [unsigned int] is a [Z] in [0, 2^32); every unsigned operation is
      followed by [to_uint] (reduction modulo 2^32).
    - An [int] is a [Z] in [-2^31, 2^31); [to_int] is the conversion to
      the 32-bit two's complement range.  Signed arithmetic is modelled as
      wrapping, which is what the documented build (gcc -g -O0) emits.
    - The argument of [process_name] is the [list byte] its pointer
      reaches: the string is what comes before the first NUL, bytes
      after it are other memory, and the end of the list reads as NUL.
    - Whether plain [char] is signed is implementation-defined, so the
      embedding takes it as a parameter [char_signed]. *)

From Stdlib Require Import ZArith Lia Ascii String DecimalString.
From Stdlib.Strings Require Import Byte.
From stdpp Require Import base numbers list list_numbers.

Local Open Scope Z_scope.

(** ** Machine integers *)

Module CInt.

Definition UINT_MOD : Z := 2 ^ 32.
Definition INT_MAX : Z := 2 ^ 31 - 1.
Definition INT_MIN : Z := - 2 ^ 31.

(** Conversion to [unsigned int]. *)
Definition to_uint (z : Z) : Z := z mod UINT_MOD.

(** Conversion to [int] (two's complement). *)
Definition to_int (z : Z) : Z := (z + 2 ^ 31) mod UINT_MOD - 2 ^ 31.

(** Conversion to [unsigned char]. *)
Definition to_uchar (z : Z) : Z := z mod 256.

(** The numeric value of a stored byte, 0..255. *)
Definition byte_val (b : byte) : Z := Z.of_N (Byte.to_N b).

End CInt.
Import CInt.

(** ** The program *)

Section Program.

(** [true] where plain [char] is a signed type (gcc on x86-64),
    [false] where it is unsigned (gcc on AArch64 Linux). *)
Variable char_signed : bool.

(** Reading a stored byte through an lvalue of type [char]. *)
Definition char_val (b : byte) : Z :=
  if char_signed && (128 <=? byte_val b) then byte_val b - 256 else byte_val b.

(** [name[i]]: the byte at index [i], the terminating NUL at the end. *)
Definition char_at (name : list byte) (i : Z) : byte :=
  default x00 (name !! Z.to_nat i).

(** [strlen]: the number of bytes before the first NUL. *)
Fixpoint strlen (s : list byte) : Z :=
  match s with
  | [] => 0
  | b :: s' => if byte_val b =? 0 then 0 else 1 + strlen s'
  end.

(** Lines 15-17:
    [while ((c = *str++)) hash = ((hash << 5) + hash) + c;]
    [c] is an [int]; in the sum it is converted to [unsigned int]. *)
Fixpoint hash_loop (hash : Z) (str : list byte) : Z :=
  match str with
  | [] => hash
  | b :: str' =>
      let c := char_val b in
      if c =? 0 then hash
      else
        hash_loop
          (to_uint (to_uint (to_uint (Z.shiftl hash 5) + hash) + to_uint c))
          str'
  end.

(** Line 26: [char_counts[(unsigned char)name[i]]++]. *)
Definition count_step (name : list byte) (char_counts : list Z) (i : Z)
  : list Z :=
  let idx := Z.to_nat (to_uchar (char_val (char_at name i))) in
  <[idx := to_int (char_counts !!! idx + 1)]> char_counts.

(** Lines 24-27: the table starts as 256 zeros; [i] runs over
    [0 .. length-1] (no iteration when [length <= 0]). *)
Definition count_loop (name : list byte) (length : Z) : list Z :=
  foldl (count_step name) (replicate 256 0) (seqZ 0 length).

(** Lines 31-33: the guarded update of [result] for one [i].  The product
    is an [int]; XOR with the unsigned [result] converts it. *)
Definition fold_step (char_counts : list Z) (result i : Z) : Z :=
  if 0 <? char_counts !!! Z.to_nat i
  then Z.lxor result (to_uint (to_int (char_counts !!! Z.to_nat i * i)))
  else result.

(** The loop of lines 30-34 run over an arbitrary sequence of indices. *)
Definition fold_order (char_counts : list Z) (order : list Z) (result : Z)
  : Z :=
  foldl (fold_step char_counts) result order.

(** Lines 30-34: [for (int i = 0; i < 256; i++)]. *)
Definition fold_loop (char_counts : list Z) (result : Z) : Z :=
  fold_order char_counts (seqZ 0 256) result.

(** The locals of [process_name] as functions of its argument. *)
Definition name_hash (name : list byte) : Z := hash_loop 5381 name.
Definition name_length (name : list byte) : Z := to_int (strlen name).
Definition name_counts (name : list byte) : list Z :=
  count_loop name (name_length name).
Definition name_result (name : list byte) : Z :=
  fold_loop (name_counts name) (name_hash name).

End Program.

(** ** Standard output and the two entry points *)

(** The text written to standard output so far. *)
Definition stdout : Type := string.

(** A computation that returns an [A] and may write to standard output. *)
Definition IO (A : Type) : Type := stdout -> A * stdout.

Definition ret {A} (a : A) : IO A := fun out => (a, out).

Definition bind {A B} (m : IO A) (k : A -> IO B) : IO B :=
  fun out => let (a, out') := m out in k a out'.

Notation "x <- m ;; k" := (bind m (fun x => k))
  (at level 100, m at next level, right associativity).
Notation "m ;; k" := (bind m (fun _ => k))
  (at level 100, right associativity).

Definition printf (text : string) : IO unit :=
  fun out => (tt, (out ++ text)%string).

Definition nl : string := String "010" EmptyString.

(** The bytes of a C string that [%s] prints: those before the first NUL. *)
Fixpoint c_str (s : list byte) : list byte :=
  match s with
  | [] => []
  | b :: s' => if byte_val b =? 0 then [] else b :: c_str s'
  end.

(** The conversions [%s], [%d] and [%u]. *)
Definition show_s (s : list byte) : string := string_of_list_byte (c_str s).
Definition show_d (z : Z) : string := NilZero.string_of_int (Z.to_int z).
Definition show_u (z : Z) : string :=
  NilZero.string_of_uint (N.to_uint (Z.to_N z)).

Section EntryPoints.

Variable char_signed : bool.

(** Line 7. *)
Definition processing_line (name : list byte) : string :=
  ("Processing name: " ++ show_s name ++ nl)%string.

(** Lines 36-37. *)
Definition summary_line (name : list byte) (length hash result : Z)
  : string :=
  ("Name: " ++ show_s name ++ ", Length: " ++ show_d length
   ++ ", Hash: " ++ show_u hash ++ ", Result: " ++ show_u result
   ++ nl)%string.

(** [unsigned int process_name(const char* name)], lines 6-40. *)
Definition process_name (name : list byte) : IO Z :=
  printf (processing_line name) ;;
  let hash := hash_loop char_signed 5381 name in
  let length := to_int (strlen name) in
  let result := hash in
  let char_counts := count_loop char_signed name length in
  let result := fold_loop char_counts result in
  printf (summary_line name length hash result) ;;
  ret result.






End EntryPoints.

(** ** What the specification says, in its own words *)

Module Spec.

(** A well-formed argument: no NUL before the terminator, and a length
    that an [int] holds. *)
Definition c_string (name : list byte) : Prop :=
  Forall (fun b => byte_val b <> 0) name.

Definition fits_int (name : list byte) : Prop :=
  Z.of_nat (length name) <= INT_MAX.

(** Step 2 of the algorithm, adding the value [c] to the accumulator. *)
Definition djb2_step (hash c : Z) : Z :=
  (Z.shiftl hash 5 + hash + c) mod 2 ^ 32.

(** The DJB2 hash of a sequence of values, from 5381. *)
Definition djb2 (cs : list Z) : Z := foldl djb2_step 5381 cs.

(** Step 4: the number of occurrences of the byte value [v]. *)
Fixpoint occurrences (v : Z) (s : list byte) : Z :=
  match s with
  | [] => 0
  | b :: s' => (if byte_val b =? v then 1 else 0) + occurrences v s'
  end.

(** Step 5: from [hash], XOR in [count * i] modulo 2^32 for each byte
    value [i] of ascending order whose count is positive. *)
Definition xor_fold (s : list byte) (hash : Z) : Z :=
  foldl (fun result i => Z.lxor result ((occurrences i s * i) mod 2 ^ 32))
    hash
    (filter (fun i => 0 < occurrences i s) (seqZ 0 256)).

End Spec.
Import Spec.

(** ** Auxiliary definitions used in the statements *)

Definition John : list byte := list_byte_of_string "John".

(** The name Jose with an acute accent on the e, in UTF-8. *)
Definition Jose_utf8 : list byte := [x4a; x6f; x73; xc3; xa9].

(** A memory image that holds the string John followed by other bytes. *)
Definition John_then_Smith : list byte :=
  John ++ x00 :: list_byte_of_string "Smith".

Definition sumZ (l : list Z) : Z := foldr Z.add 0 l.

Section Auxiliary.

Variable char_signed : bool.

(** The table after the first [n] iterations of the counting loop. *)
Definition counts_after (name : list byte) (n : nat) : list Z :=
  foldl (count_step char_signed name) (replicate 256 0)
    (seqZ 0 (Z.of_nat n)).

(** The slot that iteration [i] increments. *)
Definition slot (name : list byte) (i : nat) : nat :=
  Z.to_nat (byte_val (char_at name (Z.of_nat i))).

(** The text one call writes. *)
Definition process_name_text (name : list byte) : string :=
  (processing_line name
   ++ summary_line name (name_length name) (name_hash char_signed name)
        (name_result char_signed name))%string.

End Auxiliary.

(** The body of the loop of lines 30-34 with the guard of line 31 taken
    away. *)
Definition fold_step_unguarded (char_counts : list Z) (result i : Z) : Z :=
  Z.lxor result (to_uint (to_int (char_counts !!! Z.to_nat i * i))).

(** The terms the loop of lines 30-34 XORs into [result], in the order it
    meets them. *)
Definition xor_terms (char_counts : list Z) : list Z :=
  map (fun i => to_uint (to_int (char_counts !!! Z.to_nat i * i)))
    (filter (fun i => 0 < char_counts !!! Z.to_nat i) (seqZ 0 256)).

(** The frequency adjustment: what the loop of lines 30-34 XORs into
    [result] altogether. *)
Definition xor_mask (char_counts : list Z) : Z := fold_loop char_counts 0.

(** ** The tracing script, src/trace_runner.sh *)

Module TraceRunner.












End TraceRunner.

(** Side conditions of the concrete instances below. *)
Ltac solve_c_string :=
  unfold c_string;
  repeat (apply List.Forall_cons; [vm_compute; discriminate|]);
  apply List.Forall_nil.

Ltac solve_fits_int :=
  unfold fits_int, INT_MAX; vm_compute; discriminate.

(** ** The golden value, by evaluation *)

Example john_hash : name_hash true John = 2089257364.
Proof. vm_compute. reflexivity. Qed.

Example john_result : name_result true John = 2089257399.
Proof. vm_compute. reflexivity. Qed.

(** ** Machine integers: basic facts *)

Lemma to_uint_range z : 0 <= to_uint z < 2 ^ 32.
Proof. unfold to_uint, UINT_MOD. apply Z.mod_pos_bound. lia. Qed.

Lemma to_int_range z : INT_MIN <= to_int z <= INT_MAX.
Proof.
  unfold to_int, INT_MIN, INT_MAX, UINT_MOD.
  pose proof (Z.mod_pos_bound (z + 2 ^ 31) (2 ^ 32)). lia.
Qed.

Lemma to_int_small z : INT_MIN <= z <= INT_MAX -> to_int z = z.
Proof.
  unfold to_int, INT_MIN, INT_MAX, UINT_MOD. intros H.
  rewrite Z.mod_small; lia.
Qed.

Lemma to_uint_to_int z : to_uint (to_int z) = z mod 2 ^ 32.
Proof.
  unfold to_uint, to_int, UINT_MOD.
  rewrite <- Zminus_mod_idemp_l.
  rewrite Z.mod_mod by lia.
  rewrite Zminus_mod_idemp_l.
  replace (z + 2 ^ 31 - 2 ^ 31) with z by lia. reflexivity.
Qed.

Lemma byte_val_range b : 0 <= byte_val b <= 255.
Proof. unfold byte_val. pose proof (Byte.to_N_bounded b). lia. Qed.

Section IntegerFacts.

Variable char_signed : bool.

Lemma char_val_ascii b :
  byte_val b < 128 -> char_val char_signed b = byte_val b.
Proof.
  intros H. unfold char_val.
  destruct (128 <=? byte_val b) eqn:E; [lia|].
  by rewrite andb_false_r.
Qed.

Lemma char_val_zero b : char_val char_signed b = 0 <-> byte_val b = 0.
Proof.
  pose proof (byte_val_range b). unfold char_val.
  destruct char_signed, (128 <=? byte_val b) eqn:E; simpl; lia.
Qed.

Lemma to_uchar_char_val b : to_uchar (char_val char_signed b) = byte_val b.
Proof.
  pose proof (byte_val_range b). unfold to_uchar, char_val.
  destruct char_signed, (128 <=? byte_val b) eqn:E; simpl;
    try (apply Z.mod_small; lia).
  replace (byte_val b - 256) with (byte_val b + (-1) * 256) by lia.
  rewrite Z.mod_add by lia. apply Z.mod_small; lia.
Qed.

(** One iteration of the hash loop is one DJB2 step on the value of [c]. *)
Lemma hash_update_djb2 hash c :
  to_uint (to_uint (to_uint (Z.shiftl hash 5) + hash) + to_uint c)
  = djb2_step hash c.
Proof.
  unfold to_uint, UINT_MOD, djb2_step.
  rewrite Zplus_mod_idemp_l, Zplus_mod_idemp_r.
  rewrite <- Z.add_assoc, Zplus_mod_idemp_l, Z.add_assoc.
  reflexivity.
Qed.

Lemma djb2_step_mul33 hash c : djb2_step hash c = (hash * 33 + c) mod 2 ^ 32.
Proof. unfold djb2_step. rewrite Z.shiftl_mul_pow2 by lia. f_equal. lia. Qed.

Lemma hash_loop_c_string name : forall hash,
  c_string name ->
  hash_loop char_signed hash name
  = foldl djb2_step hash (map (char_val char_signed) name).
Proof.
  induction name as [|b name IH]; intros hash Hc; [reflexivity|].
  inversion Hc as [|? ? Hb Hrest]; subst. simpl.
  destruct (char_val char_signed b =? 0) eqn:E.
  - apply Z.eqb_eq, char_val_zero in E. contradiction.
  - rewrite hash_update_djb2. apply IH, Hrest.
Qed.

Lemma hash_loop_range name : forall hash,
  0 <= hash < 2 ^ 32 -> 0 <= hash_loop char_signed hash name < 2 ^ 32.
Proof.
  induction name as [|b name IH]; intros hash H; [exact H|].
  simpl. destruct (char_val char_signed b =? 0); [exact H|].
  apply IH, to_uint_range.
Qed.

End IntegerFacts.

(** ** The frequency table *)

Lemma sumZ_insert (l : list Z) : forall (i : nat) (x : Z),
  (i < length l)%nat -> sumZ (<[i := x]> l) = sumZ l - l !!! i + x.
Proof.
  induction l as [|y l IH]; intros i x Hi; simpl in Hi; [lia|].
  destruct i as [|i].
  - change (sumZ (<[0%nat := x]> (y :: l))) with (x + sumZ l).
    change (sumZ (y :: l)) with (y + sumZ l).
    change ((y :: l) !!! 0%nat) with y. lia.
  - change (sumZ (<[S i := x]> (y :: l))) with (y + sumZ (<[i := x]> l)).
    change (sumZ (y :: l)) with (y + sumZ l).
    change ((y :: l) !!! S i) with (l !!! i).
    rewrite IH by lia. lia.
Qed.

Lemma sumZ_replicate_zero n : sumZ (replicate n 0) = 0.
Proof. induction n as [|n IH]; simpl; [reflexivity|]. exact IH. Qed.

Lemma occurrences_app v s1 s2 :
  occurrences v (s1 ++ s2) = occurrences v s1 + occurrences v s2.
Proof. induction s1 as [|b s1 IH]; simpl; [reflexivity|]. rewrite IH. lia. Qed.

Lemma strlen_c_string name :
  c_string name -> strlen name = Z.of_nat (length name).
Proof.
  induction 1 as [|b name Hb _ IH]; [reflexivity|].
  simpl strlen. destruct (byte_val b =? 0) eqn:E; [lia|].
  rewrite IH. simpl length. lia.
Qed.

Lemma c_str_c_string name : c_string name -> c_str name = name.
Proof.
  induction 1 as [|b name Hb _ IH]; [reflexivity|].
  simpl. destruct (byte_val b =? 0) eqn:E; [lia|]. by rewrite IH.
Qed.

Section CountLoop.

Variable char_signed : bool.
Variable name : list byte.

Lemma counts_after_0 : counts_after char_signed name 0 = replicate 256 0.
Proof. reflexivity. Qed.

Lemma counts_after_S n :
  counts_after char_signed name (S n)
  = count_step char_signed name (counts_after char_signed name n)
      (Z.of_nat n).
Proof. unfold counts_after. by rewrite seqZ_S, foldl_snoc. Qed.

Lemma count_loop_counts_after len :
  count_loop char_signed name len
  = counts_after char_signed name (Z.to_nat len).
Proof.
  unfold count_loop, counts_after.
  destruct (Z.le_gt_cases 0 len) as [H|H].
  - by rewrite Z2Nat.id.
  - rewrite (seqZ_nil 0 len) by lia.
    replace (Z.to_nat len) with 0%nat by lia. reflexivity.
Qed.

Lemma slot_lt i : (slot name i < 256)%nat.
Proof.
  unfold slot. pose proof (byte_val_range (char_at name (Z.of_nat i))). lia.
Qed.

Lemma count_step_slot counts i :
  count_step char_signed name counts (Z.of_nat i)
  = <[slot name i := to_int (counts !!! slot name i + 1)]> counts.
Proof. unfold count_step, slot. by rewrite to_uchar_char_val. Qed.

(** Shape of the table: 256 entries, each between 0 and the number of
    iterations so far, adding up to that number.  No entry can reach
    [INT_MAX + 1], so the increments never wrap. *)
Lemma counts_after_shape n :
  Z.of_nat n <= INT_MAX ->
  length (counts_after char_signed name n) = 256%nat
  /\ Forall (fun c => 0 <= c <= Z.of_nat n)
       (counts_after char_signed name n)
  /\ sumZ (counts_after char_signed name n) = Z.of_nat n.
Proof.
  induction n as [|n IH]; intros Hn.
  - rewrite counts_after_0. split; [|split].
    + apply length_replicate.
    + apply Forall_replicate. lia.
    + apply sumZ_replicate_zero.
  - destruct IH as (Hlen & Hall & Hsum); [lia|].
    rewrite counts_after_S, count_step_slot.
    pose proof (slot_lt n) as Hslot.
    assert (0 <= counts_after char_signed name n !!! slot name n
            <= Z.of_nat n) as Hc
      by (apply (Forall_lookup_total_1 _ _ _ Hall); lia).
    rewrite to_int_small by (unfold INT_MIN, INT_MAX in *; lia).
    split; [|split].
    + by rewrite length_insert.
    + apply Forall_insert; [|lia].
      eapply Forall_impl; [exact Hall|]. simpl. intros; lia.
    + rewrite sumZ_insert by lia. lia.
Qed.

(** Content of the table: after [n] iterations it counts the first [n]
    bytes of the argument. *)
Lemma counts_after_occurrences n :
  (n <= length name)%nat -> Z.of_nat n <= INT_MAX ->
  forall v, 0 <= v < 256 ->
    counts_after char_signed name n !!! Z.to_nat v
    = occurrences v (take n name).
Proof.
  induction n as [|n IH]; intros Hn Hmax v Hv.
  - rewrite counts_after_0, lookup_total_replicate_2 by lia.
    by rewrite take_0.
  - destruct (lookup_lt_is_Some_2 name n) as [b Hb]; [lia|].
    rewrite (take_S_r _ _ _ Hb), occurrences_app. simpl.
    rewrite counts_after_S, count_step_slot.
    destruct (counts_after_shape n) as (Hlen & Hall & _); [lia|].
    pose proof (slot_lt n) as Hslot.
    assert (0 <= counts_after char_signed name n !!! slot name n
            <= Z.of_nat n) as Hc
      by (apply (Forall_lookup_total_1 _ _ _ Hall); lia).
    rewrite to_int_small by (unfold INT_MIN, INT_MAX in *; lia).
    assert (slot name n = Z.to_nat (byte_val b)) as Hs.
    { unfold slot, char_at. by rewrite Nat2Z.id, Hb. }
    pose proof (byte_val_range b).
    destruct (byte_val b =? v) eqn:E.
    + apply Z.eqb_eq in E. subst v. rewrite Hs.
      rewrite list_lookup_total_insert_eq by lia.
      rewrite IH by lia. lia.
    + apply Z.eqb_neq in E.
      rewrite list_lookup_total_insert_ne by lia.
      rewrite IH by lia. lia.
Qed.

End CountLoop.

(** ** The XOR fold *)

Lemma foldl_ext_elem {A B} (f g : A -> B -> A) (l : list B) :
  (forall a x, x ∈ l -> f a x = g a x) ->
  forall a, foldl f a l = foldl g a l.
Proof.
  induction l as [|x l IH]; intros Hfg a; [reflexivity|].
  simpl. rewrite Hfg by left. apply IH.
  intros a' y Hy. apply Hfg. by right.
Qed.

Lemma foldl_filter_guard {A B} (P : B -> Prop) `{!forall x, Decision (P x)}
    (f : A -> B -> A) (l : list B) :
  forall a,
    foldl (fun a x => if decide (P x) then f a x else a) a l
    = foldl f a (filter P l).
Proof.
  induction l as [|x l IH]; intros a; [reflexivity|].
  rewrite filter_cons. simpl. destruct (decide (P x)); simpl; apply IH.
Qed.

Section XorFold.

Variable counts : list Z.

Lemma fold_step_comm result i j :
  fold_step counts (fold_step counts result i) j
  = fold_step counts (fold_step counts result j) i.
Proof.
  unfold fold_step.
  destruct (0 <? counts !!! Z.to_nat i), (0 <? counts !!! Z.to_nat j);
    try reflexivity.
  rewrite !Z.lxor_assoc. f_equal. apply Z.lxor_comm.
Qed.

Lemma fold_order_permutation order1 order2 :
  order1 ≡ₚ order2 ->
  forall result,
    fold_order counts order1 result = fold_order counts order2 result.
Proof.
  unfold fold_order.
  induction 1 as [|i o1 o2 _ IH|i j o|o1 o2 o3 _ IH12 _ IH23];
    intros result; simpl.
  - reflexivity.
  - apply IH.
  - by rewrite fold_step_comm.
  - by rewrite IH12.
Qed.

(** Where the count is not negative the guard changes nothing: a zero
    count contributes the term 0. *)
Lemma fold_step_guard_redundant result i :
  0 <= counts !!! Z.to_nat i ->
  fold_step counts result i = fold_step_unguarded counts result i.
Proof.
  intros Hc. unfold fold_step, fold_step_unguarded.
  destruct (0 <? counts !!! Z.to_nat i) eqn:E; [reflexivity|].
  apply Z.ltb_ge in E.
  replace (counts !!! Z.to_nat i) with 0 by lia.
  by rewrite Z.lxor_0_r.
Qed.

(** The product of line 32 stays inside [int] while a count is at most
    8421504, that is for every argument shorter than 8 MiB; the wrapping
    of [to_int] only matters beyond that. *)
Lemma xor_term_exact i :
  0 <= i < 256 -> 0 <= counts !!! Z.to_nat i <= 8421504 ->
  to_int (counts !!! Z.to_nat i * i) = counts !!! Z.to_nat i * i.
Proof.
  intros Hi Hc. apply to_int_small. unfold INT_MIN, INT_MAX. nia.
Qed.

Lemma fold_order_range order : forall result,
  0 <= result < 2 ^ 32 -> 0 <= fold_order counts order result < 2 ^ 32.
Proof.
  unfold fold_order.
  induction order as [|i order IH]; intros result Hr; [exact Hr|].
  simpl. apply IH. unfold fold_step.
  destruct (0 <? counts !!! Z.to_nat i); [|exact Hr].
  pose proof (to_uint_range (to_int (counts !!! Z.to_nat i * i))) as Ht.
  split.
  - apply Z.lxor_nonneg. lia.
  - destruct (Z.eq_dec (Z.lxor result
               (to_uint (to_int (counts !!! Z.to_nat i * i)))) 0) as [->|Hne];
      [lia|].
    apply Z.log2_lt_pow2.
    + assert (0 <= Z.lxor result
               (to_uint (to_int (counts !!! Z.to_nat i * i))))
        by (apply Z.lxor_nonneg; lia). lia.
    + eapply Z.le_lt_trans; [apply Z.log2_lxor; lia|].
      apply Z.max_lub_lt.
      * destruct (Z.eq_dec result 0) as [->|]; [simpl; lia|].
        apply Z.log2_lt_pow2; lia.
      * destruct (Z.eq_dec (to_uint (to_int (counts !!! Z.to_nat i * i))) 0)
          as [->|]; [simpl; lia|].
        apply Z.log2_lt_pow2; lia.
Qed.

End XorFold.

(** ** What [process_name] returns and writes *)

Lemma string_app_assoc (a b c : string) :
  ((a ++ b) ++ c)%string = (a ++ (b ++ c))%string.
Proof. induction a as [|x a IH]; simpl; [reflexivity|]. by rewrite IH. Qed.


Section ProcessName.

Variable char_signed : bool.

Lemma process_name_run name out :
  process_name char_signed name out
  = (name_result char_signed name,
     (out ++ process_name_text char_signed name)%string).
Proof.
  unfold process_name, process_name_text, bind, printf, ret.
  unfold name_result, name_counts, name_hash, name_length.
  f_equal. apply string_app_assoc.
Qed.

Lemma name_length_fits name :
  c_string name -> fits_int name ->
  name_length name = Z.of_nat (length name).
Proof.
  intros Hc Hf. unfold name_length. rewrite strlen_c_string by exact Hc.
  apply to_int_small. unfold fits_int, INT_MIN, INT_MAX in *. lia.
Qed.

Lemma name_counts_shape name :
  length (name_counts char_signed name) = 256%nat
  /\ Forall (fun c => 0 <= c) (name_counts char_signed name).
Proof.
  unfold name_counts. rewrite count_loop_counts_after.
  pose proof (to_int_range (strlen name)) as Hr. fold (name_length name) in *.
  destruct (counts_after_shape char_signed name
              (Z.to_nat (name_length name))) as (Hlen & Hall & _);
    [unfold INT_MIN, INT_MAX in *; lia|].
  split; [exact Hlen|].
  eapply Forall_impl; [exact Hall|]. simpl. intros; lia.
Qed.

Lemma name_counts_occurrences name :
  c_string name -> fits_int name ->
  forall v, 0 <= v < 256 ->
    name_counts char_signed name !!! Z.to_nat v = occurrences v name.
Proof.
  intros Hc Hf v Hv. unfold name_counts.
  rewrite count_loop_counts_after, name_length_fits by assumption.
  rewrite Nat2Z.id, counts_after_occurrences;
    [by rewrite firstn_all | lia | exact Hf | exact Hv].
Qed.

End ProcessName.

(** ** The specification's claims *)

(** C1. For a well-formed argument, the value [process_name] returns is
    its hash accumulator XOR-folded, in ascending order of the byte value
    [i], with [count i * i] modulo 2^32 for exactly the byte values whose
    number of occurrences in the argument is positive. *)
Theorem process_name_xor_fold char_signed name out :
  c_string name -> fits_int name ->
  fst (process_name char_signed name out)
  = xor_fold name (name_hash char_signed name).
Proof.
  intros Hc Hf. rewrite process_name_run. simpl fst.
  unfold name_result, fold_loop, fold_order, xor_fold.
  rewrite <- foldl_filter_guard.
  apply foldl_ext_elem. intros result i Hi%elem_of_seqZ.
  unfold fold_step.
  rewrite name_counts_occurrences by (assumption || lia).
  rewrite to_uint_to_int.
  destruct (decide (0 < occurrences i name)) as [Hp|Hp].
  - apply Z.ltb_lt in Hp. by rewrite Hp.
  - apply Z.ltb_nlt in Hp. by rewrite Hp.
Qed.

Lemma process_name_xor_fold_John :
  c_string John /\ fits_int John
  /\ fst (process_name true John EmptyString)
     = xor_fold John (name_hash true John).
Proof.
  split; [solve_c_string|]. split; [solve_fits_int|].
  apply (process_name_xor_fold true John EmptyString);
    [solve_c_string | solve_fits_int].
Defined.

(** What the hash loop computes on either kind of platform.  The hash
    accumulator starts at 5381 and, for each byte of a well-formed
    argument in order, is updated by
    [hash = ((hash << 5) + hash) + c] modulo 2^32, that is
    [hash * 33 + c] modulo 2^32, where [c] is the byte read through plain
    [char]: the byte value itself when that is at most 127 or [char] is
    unsigned, and the byte value minus 256 when [char] is signed and the
    byte value is 128 or more.  The result is always a value in
    [0, 2^32). *)
Theorem name_hash_recurrence char_signed name :
  c_string name ->
  name_hash char_signed name = djb2 (map (char_val char_signed) name)
  /\ (forall hash c, djb2_step hash c = (hash * 33 + c) mod 2 ^ 32)
  /\ 0 <= name_hash char_signed name < 2 ^ 32
  /\ Forall (fun b =>
       char_val char_signed b
       = if char_signed && (128 <=? byte_val b)
         then byte_val b - 256 else byte_val b) name.
Proof.
  intros Hc. split; [|split; [|split]].
  - apply hash_loop_c_string, Hc.
  - apply djb2_step_mul33.
  - apply hash_loop_range. lia.
  - apply Forall_forall. reflexivity.
Qed.

(** C2. The code at the failing input: where plain [char] is signed, the
    hash loop does not add the byte values.  The UTF-8 bytes of Jose with
    an accented e end in 0xC3 0xA9 (195, 169); line 15 adds -61 and -87
    for them, and the hash is 226022525 where the recurrence of the
    claim, over the byte values, gives 226031229.  The counting loop of
    line 26 casts the same bytes to [unsigned char]. *)
Lemma name_hash_Jose_signed :
  c_string Jose_utf8 /\ fits_int Jose_utf8
  /\ map byte_val Jose_utf8 = [74; 111; 115; 195; 169]
  /\ name_hash true Jose_utf8 = 226022525
  /\ djb2 (map byte_val Jose_utf8) = 226031229
  /\ name_hash true Jose_utf8 <> djb2 (map byte_val Jose_utf8).
Proof.
  split; [solve_c_string|]. split; [solve_fits_int|].
  split; [reflexivity|]. split; [reflexivity|]. split; [reflexivity|].
  vm_compute. discriminate.
Qed.

(** C3. On the empty argument [process_name] returns 5381: the
    accumulator keeps its initial value, the frequency table has no
    positive entry, and the XOR fold changes nothing. *)
Theorem process_name_empty char_signed out :
  fst (process_name char_signed [] out) = 5381
  /\ name_hash char_signed [] = 5381
  /\ name_counts char_signed [] = replicate 256 0
  /\ Forall (fun c => ~ 0 < c) (name_counts char_signed [])
  /\ fold_loop (name_counts char_signed []) 5381 = 5381.
Proof.
  rewrite process_name_run. cbn [fst].
  split; [reflexivity|]. split; [reflexivity|]. split; [reflexivity|].
  split; [|reflexivity].
  change (name_counts char_signed []) with (replicate 256 0).
  apply Forall_replicate. lia.
Qed.

(** C5. On the argument John, [process_name] returns 2089257399: the DJB2
    hash 2089257364 XOR-folded with the four terms 74, 104, 110 and 111. *)
Theorem process_name_John char_signed out :
  fst (process_name char_signed John out) = 2089257399
  /\ name_hash char_signed John = 2089257364
  /\ name_hash char_signed John = djb2 (map byte_val John)
  /\ xor_terms (name_counts char_signed John) = [74; 104; 110; 111]
  /\ Z.lxor (Z.lxor (Z.lxor (Z.lxor 2089257364 74) 104) 110) 111
     = 2089257399.
Proof.
  rewrite process_name_run. cbn [fst].
  destruct char_signed; vm_compute; repeat split.
Qed.

(** C6. For every argument, running the XOR fold over any permutation of
    the byte values 0..255 gives the same result as the ascending order
    of the code. *)
Theorem xor_fold_order_independent char_signed name order out :
  order ≡ₚ seqZ 0 256 ->
  fold_order (name_counts char_signed name) order (name_hash char_signed name)
  = fst (process_name char_signed name out).
Proof.
  intros Hperm. rewrite process_name_run. cbn [fst].
  unfold name_result, fold_loop. by apply fold_order_permutation.
Qed.

Lemma xor_fold_order_independent_John :
  reverse (seqZ 0 256) ≡ₚ seqZ 0 256
  /\ fold_order (name_counts true John) (reverse (seqZ 0 256))
       (name_hash true John)
     = fst (process_name true John EmptyString).
Proof.
  split; [apply reverse_Permutation|].
  apply (xor_fold_order_independent true John (reverse (seqZ 0 256))
           EmptyString).
  apply reverse_Permutation.
Defined.

(** C7. For a well-formed argument, [length] is the number of its bytes,
    the frequency table, which starts as 256 zeros, maps every byte value
    to its exact number of occurrences, and the counts add up to the
    length. *)
Theorem frequency_table_exact char_signed name :
  c_string name -> fits_int name ->
  name_length name = Z.of_nat (length name)
  /\ count_loop char_signed name 0 = replicate 256 0
  /\ length (name_counts char_signed name) = 256%nat
  /\ (forall v, 0 <= v < 256 ->
        name_counts char_signed name !!! Z.to_nat v = occurrences v name)
  /\ sumZ (name_counts char_signed name) = name_length name.
Proof.
  intros Hc Hf.
  pose proof (name_length_fits name Hc Hf) as Hlen.
  split; [exact Hlen|]. split; [reflexivity|].
  split; [apply name_counts_shape|].
  split; [by apply name_counts_occurrences|].
  unfold name_counts. rewrite count_loop_counts_after, Hlen, Nat2Z.id.
  by apply counts_after_shape.
Qed.

Lemma frequency_table_exact_John :
  c_string John /\ fits_int John
  /\ name_length John = 4
  /\ name_counts true John !!! Z.to_nat 111 = 1.
Proof.
  split; [solve_c_string|]. split; [solve_fits_int|].
  destruct (frequency_table_exact true John) as (Hlen & _ & _ & Hocc & _);
    [solve_c_string | solve_fits_int |].
  split; [exact Hlen|]. apply (Hocc 111). lia.
Defined.

Section Main.

Variable char_signed : bool.




End Main.



(** C9. The guard [char_counts[i] > 0] of the XOR fold is redundant: for
    every argument, folding the term [char_counts[i] * i] unconditionally
    over all byte values 0..255 yields the value [process_name] returns. *)
Theorem xor_guard_redundant char_signed name out :
  foldl (fold_step_unguarded (name_counts char_signed name))
    (name_hash char_signed name) (seqZ 0 256)
  = fst (process_name char_signed name out).
Proof.
  rewrite process_name_run. cbn [fst].
  unfold name_result, fold_loop, fold_order. symmetry.
  apply foldl_ext_elem. intros result i Hi%elem_of_seqZ.
  apply fold_step_guard_redundant.
  destruct (name_counts_shape char_signed name) as [Hlen Hall].
  apply (Forall_lookup_total_1 _ _ _ Hall). lia.
Qed.

Lemma map_char_val_ascii char_signed name :
  Forall (fun b => byte_val b < 128) name ->
  map (char_val char_signed) name = map byte_val name.
Proof.
  induction 1 as [|b name Hb _ IH]; [reflexivity|].
  simpl. by rewrite char_val_ascii, IH.
Qed.

(** C10. For a well-formed argument whose bytes are all at most 127, the
    value added in each step of the hash loop is the byte value itself,
    whether plain [char] is signed or not, and the hash is the standard
    DJB2 hash of the byte sequence. *)
Theorem name_hash_ascii_djb2 char_signed name :
  c_string name ->
  Forall (fun b => byte_val b < 128) name ->
  Forall (fun b => char_val char_signed b = byte_val b) name
  /\ name_hash char_signed name = djb2 (map byte_val name)
  /\ djb2 (map byte_val name)
     = foldl (fun hash c => (hash * 33 + c) mod 2 ^ 32) 5381
         (map byte_val name).
Proof.
  intros Hc Hascii. split; [|split].
  - eapply Forall_impl; [exact Hascii|]. apply char_val_ascii.
  - unfold name_hash. rewrite hash_loop_c_string by exact Hc.
    by rewrite map_char_val_ascii.
  - unfold djb2. apply foldl_ext_elem. intros hash c _.
    apply djb2_step_mul33.
Qed.

Lemma name_hash_ascii_djb2_John :
  c_string John
  /\ Forall (fun b => byte_val b < 128) John
  /\ name_hash true John = djb2 (map byte_val John)
  /\ name_hash false John = djb2 (map byte_val John).
Proof.
  assert (Forall (fun b => byte_val b < 128) John) as Hascii
    by (repeat (apply List.Forall_cons; [reflexivity|]); apply List.Forall_nil).
  split; [solve_c_string|]. split; [exact Hascii|]. split.
  - apply (name_hash_ascii_djb2 true John); [solve_c_string | exact Hascii].
  - apply (name_hash_ascii_djb2 false John); [solve_c_string | exact Hascii].
Defined.

(** The value [process_name] returns is an [unsigned int]: it lies in
    [0, 2^32) for every argument. *)
Theorem process_name_range char_signed name out :
  0 <= fst (process_name char_signed name out) < 2 ^ 32.
Proof.
  rewrite process_name_run. cbn [fst].
  unfold name_result, fold_loop. apply fold_order_range.
  apply hash_loop_range. lia.
Qed.

(** ** Further properties of the hash loop *)

Lemma byte_val_inj b1 b2 : byte_val b1 = byte_val b2 -> b1 = b2.
Proof.
  unfold byte_val. intros H%N2Z.inj.
  pose proof (Byte.of_to_N b1) as H1. rewrite H, Byte.of_to_N in H1.
  by injection H1.
Qed.

Lemma djb2_step_range hash c : 0 <= djb2_step hash c < 2 ^ 32.
Proof. unfold djb2_step. apply Z.mod_pos_bound. lia. Qed.

(** A step of the hash loop can be undone: 1041204193 is the inverse of
    33 modulo 2^32. *)
Lemma djb2_step_undo hash c :
  0 <= hash < 2 ^ 32 ->
  ((djb2_step hash c - c) * 1041204193) mod 2 ^ 32 = hash.
Proof.
  intros Hh. rewrite djb2_step_mul33.
  rewrite <- Zmult_mod_idemp_l, Zminus_mod_idemp_l, Zmult_mod_idemp_l.
  replace ((hash * 33 + c - c) * 1041204193)
    with (hash + (8 * hash) * 2 ^ 32) by lia.
  rewrite Z.mod_add by lia. apply Z.mod_small, Hh.
Qed.

Lemma djb2_step_inj_hash h1 h2 c :
  0 <= h1 < 2 ^ 32 -> 0 <= h2 < 2 ^ 32 ->
  djb2_step h1 c = djb2_step h2 c -> h1 = h2.
Proof.
  intros H1 H2 Heq.
  rewrite <- (djb2_step_undo h1 c H1), <- (djb2_step_undo h2 c H2).
  by rewrite Heq.
Qed.

Lemma djb2_step_inj_char hash c1 c2 :
  -128 <= c1 <= 255 -> -128 <= c2 <= 255 ->
  djb2_step hash c1 = djb2_step hash c2 -> c1 = c2.
Proof.
  intros H1 H2. rewrite !djb2_step_mul33. intros Heq.
  assert (((hash * 33 + c1) - (hash * 33 + c2)) mod 2 ^ 32 = 0) as Hz
    by (rewrite Zminus_mod, Heq, Z.sub_diag; reflexivity).
  replace (hash * 33 + c1 - (hash * 33 + c2)) with (c1 - c2) in Hz by lia.
  apply Z.mod_divide in Hz; [|lia]. destruct Hz as [k Hk]. lia.
Qed.

Section HashFacts.

Variable char_signed : bool.

Lemma char_val_range b : -128 <= char_val char_signed b <= 255.
Proof.
  pose proof (byte_val_range b). unfold char_val.
  destruct (char_signed && (128 <=? byte_val b)) eqn:E; [|lia].
  apply andb_true_iff in E as [_ E]. lia.
Qed.

Lemma char_val_inj b1 b2 :
  char_val char_signed b1 = char_val char_signed b2 -> b1 = b2.
Proof.
  intros H. apply byte_val_inj.
  by rewrite <- (to_uchar_char_val char_signed b1), H, to_uchar_char_val.
Qed.

Lemma c_string_app s1 s2 : c_string (s1 ++ s2) <-> c_string s1 /\ c_string s2.
Proof. apply Forall_app. Qed.

Lemma hash_loop_cons hash b str :
  byte_val b <> 0 ->
  hash_loop char_signed hash (b :: str)
  = hash_loop char_signed (djb2_step hash (char_val char_signed b)) str.
Proof.
  intros Hb. simpl. destruct (char_val char_signed b =? 0) eqn:E.
  - apply Z.eqb_eq, char_val_zero in E. contradiction.
  - by rewrite hash_update_djb2.
Qed.

Lemma hash_loop_app s1 : forall hash s2,
  c_string s1 ->
  hash_loop char_signed hash (s1 ++ s2)
  = hash_loop char_signed (hash_loop char_signed hash s1) s2.
Proof.
  induction s1 as [|b s1 IH]; intros hash s2 Hc; [reflexivity|].
  inversion Hc as [|? ? Hb Hrest]; subst.
  rewrite <- app_comm_cons, !hash_loop_cons by exact Hb. by apply IH.
Qed.

Lemma hash_loop_nul hash rest : hash_loop char_signed hash (x00 :: rest) = hash.
Proof. by destruct char_signed. Qed.

Lemma hash_loop_inj str : forall h1 h2,
  c_string str -> 0 <= h1 < 2 ^ 32 -> 0 <= h2 < 2 ^ 32 ->
  hash_loop char_signed h1 str = hash_loop char_signed h2 str -> h1 = h2.
Proof.
  induction str as [|b str IH]; intros h1 h2 Hc H1 H2 Heq; [exact Heq|].
  inversion Hc as [|? ? Hb Hrest]; subst.
  rewrite !hash_loop_cons in Heq by exact Hb.
  apply IH in Heq; [|exact Hrest|apply djb2_step_range..].
  by apply djb2_step_inj_hash in Heq.
Qed.

End HashFacts.

(** Hashing a concatenation is continuing the loop from the hash of the
    first part. *)
Theorem name_hash_app char_signed s1 s2 :
  c_string s1 ->
  name_hash char_signed (s1 ++ s2)
  = hash_loop char_signed (name_hash char_signed s1) s2.
Proof. intros Hc. unfold name_hash. by apply hash_loop_app. Qed.

Lemma name_hash_app_John :
  c_string (list_byte_of_string "Jo")
  /\ name_hash true John
     = hash_loop true (name_hash true (list_byte_of_string "Jo"))
         (list_byte_of_string "hn").
Proof.
  split; [solve_c_string|].
  apply (name_hash_app true (list_byte_of_string "Jo")
           (list_byte_of_string "hn")).
  solve_c_string.
Defined.

(** Replacing one byte of the argument by a different one always changes
    the hash: every step of the loop is a bijection on the accumulator. *)
Theorem name_hash_substitution char_signed pre b1 b2 post :
  c_string (pre ++ b1 :: post) -> c_string (pre ++ b2 :: post) ->
  b1 <> b2 ->
  name_hash char_signed (pre ++ b1 :: post)
  <> name_hash char_signed (pre ++ b2 :: post).
Proof.
  intros [Hpre Hc1]%c_string_app [_ Hc2]%c_string_app Hne Heq.
  inversion Hc1 as [|? ? Hb1 Hpost]; subst.
  inversion Hc2 as [|? ? Hb2 _]; subst.
  unfold name_hash in Heq.
  rewrite !hash_loop_app, !hash_loop_cons in Heq by assumption.
  apply hash_loop_inj in Heq; [|exact Hpost|apply djb2_step_range..].
  apply djb2_step_inj_char in Heq; [|apply char_val_range..].
  by apply char_val_inj in Heq.
Qed.

Lemma name_hash_substitution_John :
  name_hash true John <> name_hash true (list_byte_of_string "Joan").
Proof.
  apply (name_hash_substitution true (list_byte_of_string "Jo")
           "h"%byte "a"%byte (list_byte_of_string "n"));
    [solve_c_string | solve_c_string | discriminate].
Defined.

(** The returned value is not as robust: names that differ in one byte
    can have different hashes and the same result. *)
Theorem result_collision char_signed out :
  name_hash char_signed (list_byte_of_string "ab")
  <> name_hash char_signed (list_byte_of_string "ac")
  /\ fst (process_name char_signed (list_byte_of_string "ab") out)
     = fst (process_name char_signed (list_byte_of_string "ac") out)
  /\ fst (process_name char_signed (list_byte_of_string "A") out)
     = fst (process_name char_signed (list_byte_of_string "I") out).
Proof.
  rewrite !process_name_run. cbn [fst].
  destruct char_signed; vm_compute; (split; [discriminate|split; reflexivity]).
Qed.

(** ** Further properties of the frequency table and of the result *)

Lemma to_int_le z : 0 <= z -> to_int z <= z.
Proof.
  intros Hz. unfold to_int, UINT_MOD.
  pose proof (Z.mod_le (z + 2 ^ 31) (2 ^ 32)). lia.
Qed.

Lemma strlen_bounds s : 0 <= strlen s <= Z.of_nat (length s).
Proof.
  induction s as [|b s IH]; simpl strlen; simpl length; [lia|].
  destruct (byte_val b =? 0); lia.
Qed.

Lemma name_length_le name : name_length name <= Z.of_nat (length name).
Proof.
  unfold name_length. pose proof (strlen_bounds name).
  pose proof (to_int_le (strlen name)). lia.
Qed.

Lemma strlen_nul name rest :
  c_string name -> strlen (name ++ x00 :: rest) = strlen name.
Proof.
  induction 1 as [|b name Hb _ IH]; [reflexivity|].
  rewrite <- app_comm_cons. simpl strlen.
  destruct (byte_val b =? 0); [reflexivity|]. by rewrite IH.
Qed.

Lemma c_str_nul name rest :
  c_string name -> c_str (name ++ x00 :: rest) = c_str name.
Proof.
  induction 1 as [|b name Hb _ IH]; [reflexivity|].
  rewrite <- app_comm_cons. simpl c_str.
  destruct (byte_val b =? 0); [reflexivity|]. by rewrite IH.
Qed.

Lemma char_at_app name rest i :
  0 <= i < Z.of_nat (length name) ->
  char_at (name ++ rest) i = char_at name i.
Proof. intros Hi. unfold char_at. rewrite lookup_app_l by lia. done. Qed.

Lemma count_step_signedness s1 s2 name counts i :
  count_step s1 name counts i = count_step s2 name counts i.
Proof. unfold count_step. by rewrite !to_uchar_char_val. Qed.

Lemma count_loop_signedness s1 s2 name len :
  count_loop s1 name len = count_loop s2 name len.
Proof.
  unfold count_loop. apply foldl_ext_elem. intros counts i _.
  apply count_step_signedness.
Qed.

Lemma count_loop_app char_signed name rest len :
  len <= Z.of_nat (length name) ->
  count_loop char_signed (name ++ rest) len = count_loop char_signed name len.
Proof.
  intros Hlen. unfold count_loop. apply foldl_ext_elem.
  intros counts i Hi%elem_of_seqZ. unfold count_step.
  rewrite char_at_app by lia. reflexivity.
Qed.

Section ResultFacts.

Variable counts : list Z.

Lemma fold_step_xor result i :
  fold_step counts result i = Z.lxor result (fold_step counts 0 i).
Proof.
  unfold fold_step. destruct (0 <? counts !!! Z.to_nat i).
  - by rewrite Z.lxor_0_l.
  - by rewrite Z.lxor_0_r.
Qed.

Lemma fold_order_xor order : forall result,
  fold_order counts order result
  = Z.lxor result (fold_order counts order 0).
Proof.
  unfold fold_order.
  induction order as [|i order IH]; intros result; simpl.
  - by rewrite Z.lxor_0_r.
  - rewrite IH, (IH (fold_step counts 0 i)), (fold_step_xor result i).
    apply Z.lxor_assoc.
Qed.

Lemma lxor_lt_pow2 n a b :
  0 <= n -> 0 <= a < 2 ^ n -> 0 <= b < 2 ^ n -> 0 <= Z.lxor a b < 2 ^ n.
Proof.
  intros Hn Ha Hb.
  assert (0 <= Z.lxor a b) as Hab by (apply Z.lxor_nonneg; lia).
  split; [exact Hab|].
  destruct (Z.eq_dec n 0) as [->|Hn0].
  { replace a with 0 by (simpl in Ha; lia).
    replace b with 0 by (simpl in Hb; lia). rewrite Z.lxor_0_l. lia. }
  destruct (Z.eq_dec (Z.lxor a b) 0) as [->|Hne];
    [apply Z.pow_pos_nonneg; lia|].
  apply Z.log2_lt_pow2; [lia|].
  eapply Z.le_lt_trans; [apply Z.log2_lxor; lia|].
  apply Z.max_lub_lt.
  - destruct (Z.eq_dec a 0) as [->|]; [simpl; lia|].
    apply Z.log2_lt_pow2; lia.
  - destruct (Z.eq_dec b 0) as [->|]; [simpl; lia|].
    apply Z.log2_lt_pow2; lia.
Qed.

(** While no count exceeds 257, every term of the fold is below 2^16, and
    so is their XOR. *)
Lemma fold_order_small order : forall result,
  Forall (fun c => 0 <= c <= 257) counts ->
  Forall (fun i => 0 <= i < 256 /\ (Z.to_nat i < length counts)%nat) order ->
  0 <= result < 2 ^ 16 ->
  0 <= fold_order counts order result < 2 ^ 16.
Proof.
  unfold fold_order. intros result Hc Ho. revert result.
  induction Ho as [|i order [Hi Hlt] _ IH]; intros result Hr; [exact Hr|].
  simpl. apply IH. unfold fold_step.
  destruct (0 <? counts !!! Z.to_nat i); [|exact Hr].
  pose proof (Forall_lookup_total_1 _ _ _ Hc Hlt) as Hci. simpl in Hci.
  rewrite to_uint_to_int.
  apply lxor_lt_pow2; [lia|exact Hr|].
  rewrite Z.mod_small; nia.
Qed.

End ResultFacts.

(** The bytes after the first NUL are never used: the returned value and
    the text written are those of the string before it. *)
Lemma process_name_nul_rest char_signed name rest out :
  c_string name ->
  process_name char_signed (name ++ x00 :: rest) out
  = process_name char_signed name out.
Proof.
  intros Hc. rewrite !process_name_run.
  assert (name_hash char_signed (name ++ x00 :: rest)
          = name_hash char_signed name) as Hh.
  { unfold name_hash. rewrite hash_loop_app by exact Hc.
    apply hash_loop_nul. }
  assert (name_length (name ++ x00 :: rest) = name_length name) as Hl
    by (unfold name_length; by rewrite strlen_nul).
  assert (name_counts char_signed (name ++ x00 :: rest)
          = name_counts char_signed name) as Hn.
  { unfold name_counts. rewrite Hl. apply count_loop_app, name_length_le. }
  assert (name_result char_signed (name ++ x00 :: rest)
          = name_result char_signed name) as Hr
    by (unfold name_result; by rewrite Hh, Hn).
  unfold process_name_text, processing_line, summary_line, show_s.
  by rewrite Hh, Hl, Hr, c_str_nul.
Qed.


(** The frequency table, and with it the frequency adjustment, does not
    depend on the signedness of plain [char]; the result is the hash
    XORed with that adjustment, so the two platforms differ in the
    result exactly as they differ in the hash. *)
Theorem frequency_adjustment_portable name :
  name_counts true name = name_counts false name
  /\ (forall char_signed,
        name_result char_signed name
        = Z.lxor (name_hash char_signed name)
            (xor_mask (name_counts char_signed name)))
  /\ Z.lxor (name_result true name) (name_result false name)
     = Z.lxor (name_hash true name) (name_hash false name).
Proof.
  assert (name_counts true name = name_counts false name) as Hn
    by apply count_loop_signedness.
  assert (forall s, name_result s name
          = Z.lxor (name_hash s name) (xor_mask (name_counts s name))) as Hx
    by (intros s; unfold name_result, xor_mask, fold_loop;
        apply fold_order_xor).
  split; [exact Hn|]. split; [exact Hx|].
  rewrite !Hx, Hn.
  set (m := xor_mask (name_counts false name)).
  rewrite Z.lxor_assoc, (Z.lxor_comm m), Z.lxor_assoc, Z.lxor_nilpotent.
  by rewrite Z.lxor_0_r.
Qed.

Lemma name_result_xor_mask char_signed name :
  name_result char_signed name
  = Z.lxor (name_hash char_signed name)
      (xor_mask (name_counts char_signed name)).
Proof. unfold name_result, xor_mask, fold_loop. apply fold_order_xor. Qed.

Lemma lxor_cancel_middle a b m :
  Z.lxor (Z.lxor a m) (Z.lxor b m) = Z.lxor a b.
Proof.
  rewrite Z.lxor_assoc, (Z.lxor_comm m), Z.lxor_assoc, Z.lxor_nilpotent.
  by rewrite Z.lxor_0_r.
Qed.

(** For an argument of at most 257 bytes the frequency adjustment only
    touches the low 16 bits: the result and the hash agree above them. *)
Theorem result_high_bits char_signed name :
  Z.of_nat (length name) <= 257 ->
  0 <= xor_mask (name_counts char_signed name) < 2 ^ 16
  /\ Z.shiftr (name_result char_signed name) 16
     = Z.shiftr (name_hash char_signed name) 16.
Proof.
  intros Hlen.
  assert (0 <= xor_mask (name_counts char_signed name) < 2 ^ 16) as Hm.
  { unfold xor_mask, fold_loop, name_counts.
    rewrite count_loop_counts_after.
    pose proof (name_length_le name) as Hle.
    destruct (counts_after_shape char_signed name
                (Z.to_nat (name_length name))) as (Hl & Hall & _);
      [unfold INT_MAX; lia|].
    apply fold_order_small; [| |lia].
    - eapply Forall_impl; [exact Hall|]. simpl. intros; lia.
    - apply Forall_forall. intros i Hi%elem_of_seqZ. rewrite Hl. lia. }
  split; [exact Hm|].
  rewrite name_result_xor_mask, Z.shiftr_lxor.
  set (m := xor_mask (name_counts char_signed name)) in *.
  rewrite (Z.shiftr_div_pow2 m) by lia.
  rewrite (Z.div_small m) by exact Hm.
  apply Z.lxor_0_r.
Qed.

Lemma result_high_bits_John :
  Z.shiftr (name_result true John) 16 = Z.shiftr (name_hash true John) 16.
Proof.
  apply (result_high_bits true John). vm_compute. discriminate.
Defined.

Lemma occurrences_Permutation v s1 s2 :
  s1 ≡ₚ s2 -> occurrences v s1 = occurrences v s2.
Proof.
  induction 1 as [|b s1 s2 _ IH|b1 b2 s|s1 s2 s3 _ IH12 _ IH23]; simpl.
  - reflexivity.
  - by rewrite IH.
  - lia.
  - by rewrite IH12.
Qed.

(** Anagrams share the frequency table: two well-formed arguments with
    the same bytes in another order get the same adjustment, and their
    results differ exactly as their hashes do. *)
Theorem anagram_adjustment char_signed name1 name2 :
  name1 ≡ₚ name2 -> c_string name1 -> fits_int name1 ->
  name_counts char_signed name1 = name_counts char_signed name2
  /\ Z.lxor (name_result char_signed name1) (name_result char_signed name2)
     = Z.lxor (name_hash char_signed name1) (name_hash char_signed name2).
Proof.
  intros Hperm Hc1 Hf1.
  assert (c_string name2) as Hc2 by (unfold c_string; by rewrite <- Hperm).
  assert (fits_int name2) as Hf2 by (unfold fits_int; by rewrite <- Hperm).
  assert (name_counts char_signed name1 = name_counts char_signed name2)
    as Hn.
  { destruct (name_counts_shape char_signed name1) as [Hl1 _].
    destruct (name_counts_shape char_signed name2) as [Hl2 _].
    apply list_eq. intros i.
    destruct (decide (i < 256)%nat) as [Hi|Hi].
    - rewrite !list_lookup_lookup_total_lt by lia. f_equal.
      rewrite <- (Nat2Z.id i).
      rewrite !name_counts_occurrences by (assumption || lia).
      by apply occurrences_Permutation.
    - rewrite !lookup_ge_None_2 by lia. reflexivity. }
  split; [exact Hn|].
  rewrite !name_result_xor_mask, Hn. apply lxor_cancel_middle.
Qed.

Lemma anagram_adjustment_John :
  name_counts true John = name_counts true (list_byte_of_string "hnJo").
Proof.
  apply (anagram_adjustment true John (list_byte_of_string "hnJo"));
    [|solve_c_string|solve_fits_int].
  change John with ([("J"%byte : byte); "o"%byte] ++ ["h"%byte; "n"%byte]).
  change (list_byte_of_string "hnJo")
    with (["h"%byte; "n"%byte] ++ [("J"%byte : byte); "o"%byte]).
  apply Permutation_app_comm.
Defined.

(** ** The argument as memory: only the string counts *)

Lemma c_str_split mem :
  c_string (c_str mem)
  /\ (mem = c_str mem \/ exists rest, mem = c_str mem ++ x00 :: rest).
Proof.
  induction mem as [|b mem [IHc IHs]]; simpl.
  - split; [apply List.Forall_nil | by left].
  - destruct (byte_val b =? 0) eqn:E.
    + split; [apply List.Forall_nil|]. right. exists mem.
      apply Z.eqb_eq in E. simpl. f_equal. by apply byte_val_inj.
    + apply Z.eqb_neq in E. split; [by apply List.Forall_cons|].
      destruct IHs as [IH|[rest IH]].
      * left. f_equal. exact IH.
      * right. exists rest. simpl. f_equal. exact IH.
Qed.

Lemma process_name_c_str char_signed mem out :
  process_name char_signed mem out = process_name char_signed (c_str mem) out.
Proof.
  destruct (c_str_split mem) as [Hc [H|[rest H]]].
  - by rewrite <- H.
  - transitivity (process_name char_signed (c_str mem ++ x00 :: rest) out);
      [by rewrite <- H | by apply process_name_nul_rest].
Qed.

Lemma name_hash_c_str char_signed mem :
  name_hash char_signed mem = name_hash char_signed (c_str mem).
Proof.
  destruct (c_str_split mem) as [Hc [H|[rest H]]].
  - by rewrite <- H.
  - transitivity (name_hash char_signed (c_str mem ++ x00 :: rest));
      [by rewrite <- H|].
    unfold name_hash. rewrite hash_loop_app by exact Hc.
    apply hash_loop_nul.
Qed.

Lemma name_length_c_str mem : name_length mem = name_length (c_str mem).
Proof.
  destruct (c_str_split mem) as [Hc [H|[rest H]]].
  - by rewrite <- H.
  - transitivity (name_length (c_str mem ++ x00 :: rest));
      [by rewrite <- H|].
    unfold name_length. by rewrite strlen_nul.
Qed.

(** C4. [process_name] is deterministic: two calls whose arguments hold
    the same string compute the same hash and length, return the same
    result and write the same text, whatever lies in memory after the
    terminating NUL of each argument and whatever was written to standard
    output before each call. *)
Theorem process_name_deterministic char_signed mem1 mem2 out1 out2 :
  c_str mem1 = c_str mem2 ->
  fst (process_name char_signed mem1 out1)
  = fst (process_name char_signed mem2 out2)
  /\ name_hash char_signed mem1 = name_hash char_signed mem2
  /\ name_length mem1 = name_length mem2
  /\ exists text,
       snd (process_name char_signed mem1 out1) = (out1 ++ text)%string
       /\ snd (process_name char_signed mem2 out2) = (out2 ++ text)%string.
Proof.
  intros Heq.
  rewrite (process_name_c_str _ mem1), (process_name_c_str _ mem2).
  rewrite (name_hash_c_str _ mem1), (name_hash_c_str _ mem2).
  rewrite (name_length_c_str mem1), (name_length_c_str mem2).
  rewrite Heq, !process_name_run. cbn [fst snd].
  split; [reflexivity|]. split; [reflexivity|]. split; [reflexivity|].
  eexists. split; reflexivity.
Qed.

Lemma process_name_deterministic_John :
  c_str John_then_Smith = c_str John
  /\ fst (process_name true John_then_Smith EmptyString)
     = fst (process_name true John (processing_line John)).
Proof.
  split; [reflexivity|].
  exact (proj1 (process_name_deterministic true John_then_Smith John
                  EmptyString (processing_line John) eq_refl)).
Defined.

(** ** The tracing script *)

Section TraceRunnerFacts.

Import TraceRunner.




End TraceRunnerFacts.
